(** * Shallow embedding of the Amadeus flight-search pipeline (src/index.js)

    The source file holds two copies of the server; the second one
    (lines 94-218: local ranking, upstream error check, optional
    [returnDate]) is embedded in full, the parts of the first one that
    differ from it in a section of their own.  Network calls are not
    executed: the functions below take the upstream responses as input.
    Numbers are modelled exactly: JavaScript numbers as [jsnum] (a finite
    value is a rational, besides [NaN] and the infinities), minute counts
    as [Z] (floating-point rounding is not modelled). *)

From Stdlib Require Import String Ascii List ZArith QArith Lia.
From Stdlib Require Import Qminmax Lqa Sorted Permutation DecimalNat.
Import ListNotations.
Open Scope string_scope.

(* ------------------------------------------------------------------ *)
(** ** Duration parser: [parseISODurationToMinutes] (lines 109-114)

    [String(iso).match(/PT(?:(\d+)H)?(?:(\d+)M)?/)]: the pattern is not
    anchored, so the match starts at the leftmost ["PT"]; both groups
    are optional, so once ["PT"] is found the match cannot fail.  The
    greedy [\d+] followed by a fixed letter only succeeds with the
    maximal run of digits. *)

Definition is_digit (c : ascii) : bool :=
  (48 <=? nat_of_ascii c)%nat && (nat_of_ascii c <=? 57)%nat.

Fixpoint all_digits (s : string) : bool :=
  match s with
  | EmptyString => true
  | String c r => is_digit c && all_digits r
  end.

(** Leftmost occurrence of ["PT"]: the text after it. *)
Fixpoint after_PT (s : string) : option string :=
  match s with
  | EmptyString => None
  | String "P" (String "T" rest) => Some rest
  | String _ rest => after_PT rest
  end.

(** Maximal run of leading digits, and the remainder. *)
Fixpoint digit_prefix (s : string) : string * string :=
  match s with
  | String c rest =>
      if is_digit c then
        let '(ds, r) := digit_prefix rest in (String c ds, r)
      else (EmptyString, s)
  | EmptyString => (EmptyString, EmptyString)
  end.

(** The optional group [(?:(\d+)X)?]: the captured digits, if the group
    takes part in the match, and the text after the group. *)
Definition opt_group (suffix : ascii) (s : string) : option string * string :=
  match digit_prefix s with
  | (EmptyString, _) => (None, s)
  | (ds, String c r) => if Ascii.eqb c suffix then (Some ds, r) else (None, s)
  | (_, EmptyString) => (None, s)
  end.

(** [parseInt(ds, 10)] on a string of decimal digits. *)
Fixpoint parseInt_acc (acc : Z) (s : string) : Z :=
  match s with
  | EmptyString => acc
  | String c rest =>
      parseInt_acc (acc * 10 + (Z.of_nat (nat_of_ascii c) - 48)) rest
  end.

Definition parseInt10 (s : string) : Z := parseInt_acc 0 s.

(** [m?.[i] ? parseInt(m[i], 10) : 0]: a captured group is a non-empty
    digit string, hence truthy. *)
Definition group_value (g : option string) : Z :=
  match g with
  | Some ds => if String.eqb ds EmptyString then 0 else parseInt10 ds
  | None => 0
  end.

Definition parseISODurationToMinutes (iso : string) : Z :=
  match after_PT iso with
  | None => 0
  | Some r =>
      let '(g1, r1) := opt_group "H" r in
      let '(g2, _) := opt_group "M" r1 in
      group_value g1 * 60 + group_value g2
  end.

(** [String(iso)] for an argument that may be missing
    ([String(undefined)] is ["undefined"]). *)
Definition js_String_opt (v : option string) : string :=
  match v with Some s => s | None => "undefined" end.

Definition parseDuration_opt (iso : option string) : Z :=
  parseISODurationToMinutes (js_String_opt iso).

Example parse_2h30 : parseISODurationToMinutes "PT2H30M" = 150%Z.
Proof. reflexivity. Qed.
Example parse_45m : parseISODurationToMinutes "PT45M" = 45%Z.
Proof. reflexivity. Qed.
Example parse_3h : parseISODurationToMinutes "PT3H" = 180%Z.
Proof. reflexivity. Qed.
Example parse_garbage : parseISODurationToMinutes "garbage" = 0%Z.
Proof. reflexivity. Qed.
Example parse_missing : parseDuration_opt None = 0%Z.
Proof. reflexivity. Qed.
Example parse_prefixed : parseISODurationToMinutes "xPT45M" = 45%Z.
Proof. reflexivity. Qed.
Example parse_PPT : parseISODurationToMinutes "PPT1H" = 60%Z.
Proof. reflexivity. Qed.

(* ------------------------------------------------------------------ *)
(** ** Values of the JavaScript code *)

(** JavaScript truthiness of an optional string: [undefined] and the empty
    string are falsy. *)
Definition truthy_str (v : option string) : bool :=
  match v with Some s => negb (String.eqb s EmptyString) | None => false end.

(** Decimal rendering of a natural number (template literals and
    [String(n)]). *)
Fixpoint uint_to_string (u : Decimal.uint) : string :=
  match u with
  | Decimal.Nil => EmptyString
  | Decimal.D0 u => String "0" (uint_to_string u)
  | Decimal.D1 u => String "1" (uint_to_string u)
  | Decimal.D2 u => String "2" (uint_to_string u)
  | Decimal.D3 u => String "3" (uint_to_string u)
  | Decimal.D4 u => String "4" (uint_to_string u)
  | Decimal.D5 u => String "5" (uint_to_string u)
  | Decimal.D6 u => String "6" (uint_to_string u)
  | Decimal.D7 u => String "7" (uint_to_string u)
  | Decimal.D8 u => String "8" (uint_to_string u)
  | Decimal.D9 u => String "9" (uint_to_string u)
  end.

Definition nat_to_string (n : nat) : string := uint_to_string (Nat.to_uint n).

(** [arr.join(sep)] *)
Fixpoint join (sep : string) (l : list string) : string :=
  match l with
  | [] => EmptyString
  | [x] => x
  | x :: rest => x ++ sep ++ join sep rest
  end.

(** What a JavaScript computation ends with: a value, or a thrown error. *)
Inductive js_error :=
| Error (msg : string)          (* [throw new Error(msg)] *)
| TypeError                     (* property read on [undefined] *)
| RangeError (msg : string)     (* date-fns [format] of an invalid date *)
| HTTPError (status : Z).       (* ky: a response whose status is not 2xx *)

Inductive outcome (A : Type) :=
| Ok (a : A)
| Throw (e : js_error).
Arguments Ok {A} a.
Arguments Throw {A} e.

(** A response as ky sees it; [.json()] yields the body, and ky raises
    [HTTPError] (option [throwHttpErrors], on by default) unless the
    status is in 200-299. *)
Record http_response (B : Type) := { status : Z; body : B }.
Arguments status {B} _.
Arguments body {B} _.

Definition ky_json {B} (r : http_response B) : outcome B :=
  if ((200 <=? status r) && (status r <? 300))%Z then Ok (body r)
  else Throw (HTTPError (status r)).

(** JavaScript numbers: a finite value (an exact rational: rounding is
    not modelled, and there is a single zero), [NaN], [Infinity] and
    [-Infinity]. *)
Inductive jsnum :=
| JNum (q : Q)
| JNaN
| JInf
| JNegInf.

Definition js_neg (a : jsnum) : jsnum :=
  match a with
  | JNum x => JNum (- x) | JNaN => JNaN | JInf => JNegInf | JNegInf => JInf
  end.

(** [a + b] *)
Definition js_add (a b : jsnum) : jsnum :=
  match a, b with
  | JNaN, _ | _, JNaN => JNaN
  | JNum x, JNum y => JNum (x + y)
  | JInf, JNegInf | JNegInf, JInf => JNaN
  | JInf, _ | _, JInf => JInf
  | JNegInf, _ | _, JNegInf => JNegInf
  end.

(** [a - b] *)
Definition js_sub (a b : jsnum) : jsnum := js_add a (js_neg b).

(** [x * i] for a finite [x] and an infinite [i]. *)
Definition js_scale_inf (x : Q) (i : jsnum) : jsnum :=
  match Qcompare x 0 with Eq => JNaN | Gt => i | Lt => js_neg i end.

(** [a * b] *)
Definition js_mul (a b : jsnum) : jsnum :=
  match a, b with
  | JNaN, _ | _, JNaN => JNaN
  | JNum x, JNum y => JNum (x * y)
  | JNum x, i | i, JNum x => js_scale_inf x i
  | JInf, JInf | JNegInf, JNegInf => JInf
  | _, _ => JNegInf
  end.

(** [a / b]; zero is unsigned here and read as [+0] (the divisions of the
    code are by [Math.max(1, _)], which is never zero). *)
Definition js_div (a b : jsnum) : jsnum :=
  match a, b with
  | JNaN, _ | _, JNaN => JNaN
  | JNum x, JNum y => if Qeq_bool y 0 then js_scale_inf x JInf else JNum (x / y)
  | JNum _, _ => JNum 0
  | i, JNum y => match Qcompare y 0 with Lt => js_neg i | _ => i end
  | _, _ => JNaN
  end.

(** [Math.max(a, b)] and [Math.min(a, b)] *)
Definition js_max2 (a b : jsnum) : jsnum :=
  match a, b with
  | JNaN, _ | _, JNaN => JNaN
  | JNum x, JNum y => JNum (Qmax x y)
  | JInf, _ | _, JInf => JInf
  | JNegInf, c | c, JNegInf => c
  end.

Definition js_min2 (a b : jsnum) : jsnum :=
  match a, b with
  | JNaN, _ | _, JNaN => JNaN
  | JNum x, JNum y => JNum (Qmin x y)
  | JNegInf, _ | _, JNegInf => JNegInf
  | JInf, c | c, JInf => c
  end.

(** [Math.max(...xs)] and [Math.min(...xs)]: [-Infinity] and [Infinity]
    for an empty list, [NaN] as soon as one element is [NaN]. *)
Definition js_max_list (xs : list jsnum) : jsnum := fold_left js_max2 xs JNegInf.
Definition js_min_list (xs : list jsnum) : jsnum := fold_left js_min2 xs JInf.

(** [a <= b] *)
Definition js_le (a b : jsnum) : Prop :=
  match a, b with
  | JNaN, _ | _, JNaN => False
  | JNum x, JNum y => x <= y
  | JNegInf, _ | _, JInf => True
  | _, _ => False
  end.



(** [Number.prototype.toString] on a finite number: the decimal digits
    of an integer below [10^21] in magnitude; the renderings of the other
    values (fractions, exponent notation) are the parameter [other]. *)
Definition js_number_to_string (other : Q -> string) (x : Q) : string :=
  if Z.eqb (Z.modulo (Qnum x) (Zpos (Qden x))) 0 then
    let k := Z.div (Qnum x) (Zpos (Qden x)) in
    if Z.ltb (Z.abs k) (10 ^ 21) then
      if Z.ltb k 0 then "-" ++ nat_to_string (Z.to_nat (- k))
      else nat_to_string (Z.to_nat k)
    else other x
  else other x.

(* ------------------------------------------------------------------ *)
(** ** Upstream shapes (Amadeus flight-offers JSON) *)

Record segment := {
  seg_departure_iataCode : string;
  seg_departure_at : string;
  seg_arrival_iataCode : string;
  seg_arrival_at : string;
  seg_carrierCode : string;
  seg_number : string;
  seg_duration : option string
}.

Record itinerary := {
  itin_duration : option string;
  itin_segments : list segment
}.

Record offer := {
  offer_id : option string;
  price_total : string;
  price_currency : string;
  itineraries : list itinerary
}.

(** An entry of [res.errors]; [err_json] is [JSON.stringify(e)]. *)
Record upstream_error := {
  err_detail : option string;
  err_title : option string;
  err_json : string
}.

(** [res.data]: an array, or anything else (absent, [null], an object). *)
Inductive response_data :=
| DataArray (offers : list offer)
| DataOther.

Record search_body := {
  res_errors : option (list upstream_error);
  res_data : response_data
}.

Record token_body := { access_token : option string }.

(* ------------------------------------------------------------------ *)
(** ** Normalized shapes *)

Record leg := {
  leg_from : string;
  leg_to : string;
  leg_depart : string;
  leg_arrive : string;
  leg_airline : string;
  leg_flightNo : string;
  leg_durationMin : Z
}.

(** An Option object; [o_score] is the ad-hoc property [_score] that the
    balanced ranking adds and deletes ([None]: property absent). *)
Record flight_option := {
  o_id : string;
  o_provider : string;
  o_price : jsnum;
  o_currency : string;
  o_legs : list leg;
  o_totalDurationMin : Z;
  o_transfers : Z;
  o_notes : list string;
  o_score : option jsnum
}.

Definition set_score (s : option jsnum) (m : flight_option) : flight_option :=
  {| o_id := o_id m; o_provider := o_provider m; o_price := o_price m;
     o_currency := o_currency m; o_legs := o_legs m;
     o_totalDurationMin := o_totalDurationMin m;
     o_transfers := o_transfers m; o_notes := o_notes m; o_score := s |}.

(** The query of the request body; [q_pax] is a JSON number (finite). *)
Record query := {
  q_from : string;
  q_to : string;
  q_start : string;
  q_end : option string;
  q_pax : option Q;
  q_optimize : option string
}.

(* ------------------------------------------------------------------ *)
(** ** Stable sorting: [Array.prototype.sort(comparefn)], stable since
    ES2019.  For a consistent comparator the result is the unique stable
    ordering, which insertion sort computes.  A comparison answering
    [NaN] (read as [+0]) can make the comparator inconsistent; the order
    is then implementation-defined, and insertion sort gives one of the
    allowed orders: the properties below that are about the order assume
    that no comparison answers [NaN]. *)

(** A comparator's answer [v] as [sort] reads it: [b] goes before [a]
    when [v > 0]; [NaN] counts as [+0]. *)
Definition cmp_gt0 (v : jsnum) : bool :=
  match v with JNum x => negb (Qle_bool x 0) | JInf => true | _ => false end.

Section SortBy.
Variable A : Type.
Variable cmp : A -> A -> jsnum.

Fixpoint insert_by (x : A) (l : list A) : list A :=
  match l with
  | [] => [x]
  | y :: ys => if cmp_gt0 (cmp x y) then y :: insert_by x ys
               else x :: y :: ys
  end.

Fixpoint sort_by (l : list A) : list A :=
  match l with
  | [] => []
  | x :: xs => insert_by x (sort_by xs)
  end.
End SortBy.
Arguments insert_by {A} cmp x l.
Arguments sort_by {A} cmp l.

(** The comparator [(a, b) => key(a) - key(b)]. *)
Definition by_key {A} (key : A -> jsnum) (a b : A) : jsnum := js_sub (key a) (key b).

Definition price_key (m : flight_option) : jsnum := o_price m.
Definition duration_key (m : flight_option) : jsnum :=
  JNum (inject_Z (o_totalDurationMin m)).
(** [(a._score ?? 0)] *)
Definition score_key (m : flight_option) : jsnum :=
  match o_score m with Some s => s | None => JNum 0 end.

(** The combined score of lines 189-191, with the bounds of the list. *)
Definition balanced_score (minP maxP minT maxT : jsnum) (m : flight_option) : jsnum :=
  let pN := js_div (js_sub (o_price m) minP) (js_max2 (JNum 1) (js_sub maxP minP)) in
  let tN := js_div (js_sub (duration_key m) minT) (js_max2 (JNum 1) (js_sub maxT minT)) in
  js_add (js_mul (JNum (1 # 2)) pN) (js_mul (JNum (1 # 2)) tN).

(** Lines 184-187: the bounds are those of the mapped list. *)
Definition score_of (mapped : list flight_option) (m : flight_option) : jsnum :=
  balanced_score (js_min_list (map price_key mapped)) (js_max_list (map price_key mapped))
                 (js_min_list (map duration_key mapped))
                 (js_max_list (map duration_key mapped)) m.

(** [q.optimize || 'balanced'] *)
Definition optimize_mode (o : option string) : string :=
  match o with Some s => if String.eqb s EmptyString then "balanced" else s
          | None => "balanced" end.

(** The local ranking, lines 180-195. *)
Definition rank (optimize : option string) (mapped : list flight_option)
  : list flight_option :=
  let opt := optimize_mode optimize in
  if String.eqb opt "shortest" then sort_by (by_key duration_key) mapped
  else if String.eqb opt "cheapest" then sort_by (by_key price_key) mapped
  else
    let scored := map (fun m => set_score (Some (score_of mapped m)) m) mapped in
    let sorted := sort_by (by_key score_key) scored in
    map (set_score None) sorted.

(* ------------------------------------------------------------------ *)
(** ** Offer mapping and search (lines 129-198) *)

Section Pipeline.
(** [parseFloat] on the offer's total ([NaN] for a text that does not
    start with a number). *)
Variable parseFloat : string -> jsnum.
(** [format(new Date(s), 'yyyy-MM-dd')] (Date and date-fns), for a
    string [s] that [new Date] reads as a valid date. *)
Variable format_date : string -> string.
(** Whether [new Date(s)] is a valid date (its time value is not [NaN]). *)
Variable valid_date : string -> bool.
(** [Number.prototype.toString] on the numbers it does not render as
    plain integer digits. *)
Variable number_to_string_other : Q -> string.

Definition map_segment (seg : segment) : leg :=
  {| leg_from := seg_departure_iataCode seg;
     leg_to := seg_arrival_iataCode seg;
     leg_depart := seg_departure_at seg;
     leg_arrive := seg_arrival_at seg;
     leg_airline := seg_carrierCode seg;
     leg_flightNo := seg_carrierCode seg ++ seg_number seg;
     leg_durationMin := parseDuration_opt (seg_duration seg) |}.

(** The callback of [data.map]; [offer.itineraries[0]] is [undefined]
    for an offer without itineraries, and reading its [segments]
    throws. *)
Definition map_offer (idx : nat) (o : offer) : outcome flight_option :=
  match itineraries o with
  | [] => Throw TypeError
  | itin :: _ =>
      let legs := map map_segment (itin_segments itin) in
      Ok {| o_id := if truthy_str (offer_id o) then js_String_opt (offer_id o)
                    else "am-" ++ nat_to_string idx;
            o_provider := "AMADEUS";
            o_price := parseFloat (price_total o);
            o_currency := price_currency o;
            o_legs := legs;
            o_totalDurationMin := parseDuration_opt (itin_duration itin);
            o_transfers := Z.max 0 (Z.of_nat (length legs) - 1);
            o_notes := [];
            o_score := None |}
  end.

(** [data.map((offer, idx) => ...)]; the first throw ends it. *)
Fixpoint map_offers_from (idx : nat) (data : list offer)
  : outcome (list flight_option) :=
  match data with
  | [] => Ok []
  | o :: rest =>
      match map_offer idx o with
      | Throw e => Throw e
      | Ok m =>
          match map_offers_from (S idx) rest with
          | Throw e => Throw e
          | Ok ms => Ok (m :: ms)
          end
      end
  end.

Definition map_offers (data : list offer) : outcome (list flight_option) :=
  map_offers_from 0 data.

(** [e.detail || e.title || JSON.stringify(e)] *)
Definition err_text (e : upstream_error) : string :=
  if truthy_str (err_detail e) then js_String_opt (err_detail e)
  else if truthy_str (err_title e) then js_String_opt (err_title e)
  else err_json e.

(** Lines 148-197, from the parsed body [res] on. *)
Definition process_body (q : query) (res : search_body)
  : outcome (list flight_option) :=
  match res_errors res with
  | Some ((_ :: _) as es) =>
      Throw (Error ("Amadeus error: " ++ join " | " (map err_text es)))
  | _ =>
      let data := match res_data res with
                  | DataArray l => l | DataOther => [] end in
      match map_offers data with
      | Throw e => Throw e
      | Ok mapped => Ok (rank (q_optimize q) mapped)
      end
  end.

(** [params.set(name, value)]: replaces the first pair of that name and
    drops the others, or appends. *)
Fixpoint params_set (k v : string) (ps : list (string * string))
  : list (string * string) :=
  match ps with
  | [] => [(k, v)]
  | (k', v') :: rest =>
      if String.eqb k k'
      then (k, v) :: filter (fun p => negb (String.eqb (fst p) k)) rest
      else (k', v') :: params_set k v rest
  end.

(** [String(q.pax || 1)] for a numeric [pax] (0 is falsy). *)
Definition adults_param (pax : option Q) : string :=
  js_number_to_string number_to_string_other
    (match pax with Some n => if Qeq_bool n 0 then 1 else n | None => 1 end).

(** Lines 132-141. *)
Definition build_params (q : query) : list (string * string) :=
  let params :=
    [("originLocationCode", q_from q);
     ("destinationLocationCode", q_to q);
     ("departureDate", format_date (q_start q));
     ("adults", adults_param (q_pax q));
     ("currencyCode", "USD");
     ("max", "30")] in
  if truthy_str (q_end q)
  then params_set "returnDate" (format_date (js_String_opt (q_end q))) params
  else params.

(** [getAccessToken], lines 116-126: [res.access_token], which is
    [undefined] ([None]) when the field is missing. *)
Definition getAccessToken (r : http_response token_body)
  : outcome (option string) :=
  match ky_json r with
  | Throw e => Throw e
  | Ok b => Ok (access_token b)
  end.

(** [format(new Date(s), 'yyyy-MM-dd')]: date-fns throws a RangeError
    "Invalid time value" for an invalid date. *)
Definition format_checked (s : string) : outcome string :=
  if valid_date s then Ok (format_date s) else Throw (RangeError "Invalid time value").

(** Lines 132-141 as they run: [format] of [q.start] (line 135), then of
    [q.end] when it is truthy (line 141); either may throw, otherwise the
    parameters are [build_params q]. *)
Definition request_params (q : query) : outcome (list (string * string)) :=
  match format_checked (q_start q) with
  | Throw e => Throw e
  | Ok _ =>
      if truthy_str (q_end q) then
        match format_checked (js_String_opt (q_end q)) with
        | Throw e => Throw e
        | Ok _ => Ok (build_params q)
        end
      else Ok (build_params q)
  end.

(** [searchAmadeus], with the two upstream responses as inputs: the
    token exchange (line 130), the parameters (lines 132-141), then the
    offer search sent with them, whose answer is [res]. *)
Definition searchAmadeus (q : query) (tok : http_response token_body)
           (res : http_response search_body) : outcome (list flight_option) :=
  match getAccessToken tok with
  | Throw e => Throw e
  | Ok _ =>
      match request_params q with
      | Throw e => Throw e
      | Ok _ =>
          match ky_json res with
          | Throw e => Throw e
          | Ok b => process_body q b
          end
      end
  end.
End Pipeline.

(* ------------------------------------------------------------------ *)
(** ** The first copy of [searchAmadeus] (lines 33-74)

    Its mapping callback (lines 51-73) is the same code as lines 155-177,
    so [map_offers] embeds it too.  It sends a [sort] parameter, never a
    [returnDate], does not look at [res.errors] and does no local
    ranking. *)

Section FirstCopy.
Variable parseFloat : string -> jsnum.
Variable format_date : string -> string.
Variable valid_date : string -> bool.
Variable number_to_string_other : Q -> string.



(** Lines 50-73, from the parsed body on. *)
Definition process_body_v1 (res : search_body) : outcome (list flight_option) :=
  let data := match res_data res with DataArray l => l | DataOther => [] end in
  map_offers parseFloat data.

(** Lines 33-48: the token, [format] of [q.start] (line 39), then the
    offer search. *)
Definition searchAmadeus_v1 (q : query) (tok : http_response token_body)
           (res : http_response search_body) : outcome (list flight_option) :=
  match getAccessToken tok with
  | Throw e => Throw e
  | Ok _ =>
      match format_checked format_date valid_date (q_start q) with
      | Throw e => Throw e
      | Ok _ =>
          match ky_json res with
          | Throw e => Throw e
          | Ok b => process_body_v1 b
          end
      end
  end.
End FirstCopy.

(* ------------------------------------------------------------------ *)
(** ** The route [POST /api/search] (lines 201-213) *)

(** The JSON answer: [{ ok: true, options }] or [{ ok: false, error }]. *)
Inductive api_body :=
| ApiOptions (options : list flight_option)
| ApiError (error : string).

Record api_response := { http_status : Z; api_json : api_body }.

(** [req.body || {}]: a missing body reads as an object without fields. *)
Definition empty_query : query :=
  {| q_from := EmptyString; q_to := EmptyString; q_start := EmptyString;
     q_end := None; q_pax := None; q_optimize := None |}.

Definition nonempty (s : string) : bool := negb (String.eqb s EmptyString).

Section Route.
(** [e.message] of the errors raised by the runtime and by ky. *)
Variable builtin_message : js_error -> string.

Definition js_message (e : js_error) : string :=
  match e with Error m | RangeError m => m | _ => builtin_message e end.

Definition handle_search (search : query -> outcome (list flight_option))
           (req_body : option query) : api_response :=
  let q := match req_body with Some q => q | None => empty_query end in
  if negb (nonempty (q_from q)) || negb (nonempty (q_to q)) || negb (nonempty (q_start q))
  then {| http_status := 400; api_json := ApiError "from, to, start are required" |}
  else
    match search q with
    | Ok options => {| http_status := 200; api_json := ApiOptions options |}
    | Throw e =>
        {| http_status := 500;
           api_json := ApiError (if nonempty (js_message e) then js_message e
                                 else "Server error") |}
    end.
End Route.

(* ================================================================== *)
(** * Properties *)

(** ** Stable sort: generic facts *)

Section SortFacts.
Variable A : Type.

(** [b] is not put before [a]. *)
Definition not_after (cmp : A -> A -> jsnum) (a b : A) : Prop := cmp_gt0 (cmp a b) = false.

Lemma insert_by_perm (cmp : A -> A -> jsnum) x l :
  Permutation (x :: l) (insert_by cmp x l).
Proof.
  induction l as [|y ys IH]; simpl; [constructor; constructor|].
  destruct (cmp_gt0 (cmp x y)); [|reflexivity].
  rewrite perm_swap. constructor. exact IH.
Qed.

Lemma sort_by_perm (cmp : A -> A -> jsnum) l : Permutation l (sort_by cmp l).
Proof.
  induction l as [|x xs IH]; simpl; [constructor|].
  rewrite <- insert_by_perm. constructor. exact IH.
Qed.

Lemma insert_by_hdrel (cmp : A -> A -> jsnum) a x l :
  not_after cmp a x ->
  HdRel (not_after cmp) a l ->
  HdRel (not_after cmp) a (insert_by cmp x l).
Proof.
  intros Hax Hl. destruct l as [|y ys]; simpl.
  - constructor. exact Hax.
  - inversion Hl; subst.
    destruct (cmp_gt0 (cmp x y)); constructor; assumption.
Qed.

(** A comparator that never puts each of two elements before the other
    yields a list in which no element is put before its predecessor. *)
Lemma insert_by_sorted (cmp : A -> A -> jsnum) x l :
  (forall u v, cmp_gt0 (cmp u v) = true -> cmp_gt0 (cmp v u) = false) ->
  Sorted (not_after cmp) l -> Sorted (not_after cmp) (insert_by cmp x l).
Proof.
  intro Hasym. induction 1 as [|y ys Hs IH Hhd]; simpl.
  - repeat constructor.
  - case_eq (cmp_gt0 (cmp x y)); intro Hc.
    + constructor; [exact IH|].
      apply insert_by_hdrel; [|exact Hhd]. apply Hasym, Hc.
    + constructor; [constructor; assumption|]. constructor. exact Hc.
Qed.

Lemma sort_by_sorted (cmp : A -> A -> jsnum) l :
  (forall u v, cmp_gt0 (cmp u v) = true -> cmp_gt0 (cmp v u) = false) ->
  Sorted (not_after cmp) (sort_by cmp l).
Proof.
  intro Hasym. induction l as [|x xs IH]; simpl; [constructor|].
  apply insert_by_sorted; assumption.
Qed.

(** [sort_by] only looks at the outcome of the comparisons. *)
Lemma insert_by_ext (c1 c2 : A -> A -> jsnum) x l :
  (forall y, In y l -> cmp_gt0 (c1 x y) = cmp_gt0 (c2 x y)) ->
  insert_by c1 x l = insert_by c2 x l.
Proof.
  induction l as [|y ys IH]; intro H; simpl; [reflexivity|].
  rewrite (H y (or_introl eq_refl)).
  destruct (cmp_gt0 (c2 x y)); [|reflexivity].
  f_equal. apply IH. intros z Hz. apply H. right. exact Hz.
Qed.

Lemma sort_by_ext (c1 c2 : A -> A -> jsnum) l :
  (forall x y, In x l -> In y l -> cmp_gt0 (c1 x y) = cmp_gt0 (c2 x y)) ->
  sort_by c1 l = sort_by c2 l.
Proof.
  induction l as [|x xs IH]; intro H; simpl; [reflexivity|].
  rewrite IH by (intros u v Hu Hv; apply H; right; assumption).
  apply insert_by_ext. intros y Hy. apply H; [left; reflexivity|].
  right. apply (Permutation_in _ (Permutation_sym (sort_by_perm c2 xs))).
  exact Hy.
Qed.


Lemma sort_by_sorted_id (cmp : A -> A -> jsnum) l :
  Sorted (not_after cmp) l -> sort_by cmp l = l.
Proof.
  induction 1 as [|x xs Hs IH Hhd]; [reflexivity|]. simpl. rewrite IH.
  destruct Hhd as [|y ys Hxy]; [reflexivity|]. simpl.
  unfold not_after in Hxy. rewrite Hxy. reflexivity.
Qed.
End SortFacts.
Arguments not_after {A} cmp a b.

Lemma insert_by_map {A B} (cmp : B -> B -> jsnum) (f : A -> B) x l :
  insert_by cmp (f x) (map f l) = map f (insert_by (fun a b => cmp (f a) (f b)) x l).
Proof.
  induction l as [|y ys IH]; simpl; [reflexivity|].
  destruct (cmp_gt0 (cmp (f x) (f y))); simpl; [|reflexivity].
  rewrite IH. reflexivity.
Qed.

Lemma sort_by_map {A B} (cmp : B -> B -> jsnum) (f : A -> B) l :
  sort_by cmp (map f l) = map f (sort_by (fun a b => cmp (f a) (f b)) l).
Proof.
  induction l as [|x xs IH]; simpl; [reflexivity|].
  rewrite IH. apply insert_by_map.
Qed.



(** ** Numbers: the comparator [(a, b) => a - b] *)


(** [a - b > 0] and [b - a > 0] never hold together, whatever the
    numbers (infinite or [NaN] included). *)
Lemma by_sub_asym a b :
  cmp_gt0 (js_sub a b) = true -> cmp_gt0 (js_sub b a) = false.
Proof.
  destruct a as [x| | |], b as [y| | |]; simpl; try discriminate; try reflexivity.
  intro H. apply negb_true_iff in H. apply negb_false_iff.
  apply Qle_bool_iff. apply Bool.not_true_iff_false in H.
  rewrite Qle_bool_iff in H. lra.
Qed.

Lemma by_key_asym {A} (key : A -> jsnum) u v :
  cmp_gt0 (by_key key u v) = true -> cmp_gt0 (by_key key v u) = false.
Proof. apply by_sub_asym. Qed.


(** ** The ranking stage *)

Lemma set_score_set_score s s' m :
  set_score s (set_score s' m) = set_score s m.
Proof. destruct m; reflexivity. Qed.

Lemma set_score_none m : o_score m = None -> set_score None m = m.
Proof. destruct m; simpl; intros ->; reflexivity. Qed.

Lemma score_of_set_score l s m : score_of l (set_score s m) = score_of l m.
Proof. destruct m; reflexivity. Qed.

Lemma rank_shortest opt l :
  optimize_mode opt = "shortest" -> rank opt l = sort_by (by_key duration_key) l.
Proof. unfold rank. intros ->. reflexivity. Qed.

Lemma rank_cheapest opt l :
  optimize_mode opt = "cheapest" -> rank opt l = sort_by (by_key price_key) l.
Proof. unfold rank. intros ->. reflexivity. Qed.

(** The balanced branch sorts by the combined score of the whole list
    and leaves every Option without a [_score] property. *)
Lemma rank_balanced opt l :
  optimize_mode opt <> "shortest" -> optimize_mode opt <> "cheapest" ->
  rank opt l = map (set_score None) (sort_by (by_key (score_of l)) l).
Proof.
  intros Hs Hc. unfold rank.
  apply String.eqb_neq in Hs, Hc. rewrite Hs, Hc.
  rewrite sort_by_map, map_map.
  rewrite (sort_by_ext _ _ (by_key (score_of l))) by (intros x y _ _; reflexivity).
  apply map_ext. intro m. apply set_score_set_score.
Qed.

Lemma Forall_map_set_score_none l :
  Forall (fun m => o_score m = None) (map (set_score None) l).
Proof.
  apply Forall_forall. intros x Hx. apply in_map_iff in Hx.
  destruct Hx as [m [<- _]]. destruct m; reflexivity.
Qed.

Lemma sorted_map_set_score_none l (R : flight_option -> flight_option -> Prop) :
  (forall a b, R a b -> R (set_score None a) (set_score None b)) ->
  Sorted R l -> Sorted R (map (set_score None) l).
Proof.
  intros HR. induction 1 as [|a l' Hs IH Hhd]; simpl; constructor; [exact IH|].
  destruct Hhd; simpl; constructor. apply HR. assumption.
Qed.

(** *** Finite prices: the score as a rational *)
















(** C10 *)
(** Claim C10: for every optimize value, the ranking of a mapped list
    (whose Options carry no [_score]) is a permutation of it: every
    Option comes back with all its fields unchanged, and none keeps a
    [_score] property. *)
Theorem rank_permutation (opt : option string) (l : list flight_option) :
  Forall (fun m => o_score m = None) l ->
  Permutation l (rank opt l) /\ Forall (fun m => o_score m = None) (rank opt l).
Proof.
  intro Hnone.
  destruct (String.eqb_spec (optimize_mode opt) "shortest") as [Hs|Hs];
  [|destruct (String.eqb_spec (optimize_mode opt) "cheapest") as [Hc|Hc]].
  - rewrite rank_shortest by exact Hs. split; [apply sort_by_perm|].
    eapply Permutation_Forall; [apply sort_by_perm|exact Hnone].
  - rewrite rank_cheapest by exact Hc. split; [apply sort_by_perm|].
    eapply Permutation_Forall; [apply sort_by_perm|exact Hnone].
  - rewrite rank_balanced by assumption. split; [|apply Forall_map_set_score_none].
    transitivity (map (set_score None) l).
    + rewrite map_ext_Forall with (g := fun m => m), map_id; [reflexivity|].
      eapply Forall_impl; [|exact Hnone]. intros a Ha. apply set_score_none, Ha.
    + apply Permutation_map, sort_by_perm.
Qed.




(** Small Options for concrete checks. *)
Definition mk_option_js (id : string) (price : jsnum) (dur : Z) : flight_option :=
  {| o_id := id; o_provider := "AMADEUS"; o_price := price; o_currency := "USD";
     o_legs := []; o_totalDurationMin := dur; o_transfers := 0; o_notes := [];
     o_score := None |}.

Definition mk_option (id : string) (price : Q) (dur : Z) : flight_option :=
  mk_option_js id (JNum price) dur.

Example rank_cheapest_example :
  map o_id (rank (Some "cheapest") [mk_option "a" 200 300; mk_option "b" 150 400])
  = ["b"; "a"].
Proof. reflexivity. Qed.





Lemma rank_permutation_witness :
  Forall (fun m => o_score m = None) [mk_option "a" 100 200; mk_option "b" 150 100] /\
  Permutation [mk_option "a" 100 200; mk_option "b" 150 100]
              (rank None [mk_option "a" 100 200; mk_option "b" 150 100]).
Proof.
  split; [repeat constructor|].
  apply (rank_permutation None); repeat constructor.
Defined.

(** ** The mapping stage *)

Definition mk_segment (from to : string) (dur : string) : segment :=
  {| seg_departure_iataCode := from; seg_departure_at := "2024-06-01T08:00:00";
     seg_arrival_iataCode := to; seg_arrival_at := "2024-06-01T11:00:00";
     seg_carrierCode := "AA"; seg_number := "100"; seg_duration := Some dur |}.

Definition mk_offer (id : option string) (total : string) (its : list itinerary) : offer :=
  {| offer_id := id; price_total := total; price_currency := "USD";
     itineraries := its |}.

(** A stand-in for [parseFloat] in concrete checks: a non-empty run of
    decimal digits reads as its value, anything else as [NaN]. *)
Definition parseFloat_digits (s : string) : jsnum :=
  if negb (String.eqb s EmptyString) && all_digits s
  then JNum (inject_Z (parseInt10 s)) else JNaN.

Example map_offer_example :
  match map_offer parseFloat_digits 3
          (mk_offer None "150" [{| itin_duration := Some "PT5H";
                                   itin_segments := [mk_segment "JFK" "ORD" "PT2H";
                                                     mk_segment "ORD" "LAX" "PT3H"] |}]) with
  | Ok m => (o_id m, o_transfers m, o_totalDurationMin m, map leg_flightNo (o_legs m))
  | Throw _ => (EmptyString, 0%Z, 0%Z, [])
  end = ("am-3", 1%Z, 300%Z, ["AA100"; "AA100"]).
Proof. reflexivity. Qed.

Lemma map_offers_from_ok pf idx data :
  Forall (fun o => itineraries o <> []) data ->
  exists ms, map_offers_from pf idx data = Ok ms /\ length ms = length data /\
    forall i o, nth_error data i = Some o ->
      exists m, nth_error ms i = Some m /\ map_offer pf (idx + i) o = Ok m.
Proof.
  intro H. revert idx. induction H as [|o rest Ho Hrest IH]; intro idx.
  - exists []. split; [reflexivity|]. split; [reflexivity|].
    intros [|i] o H; discriminate H.
  - destruct (IH (S idx)) as [ms [Hms [Hlen Hnth]]].
    assert (Hm : exists m, map_offer pf idx o = Ok m).
    { unfold map_offer. destruct (itineraries o); [congruence|]. eexists. reflexivity. }
    destruct Hm as [m Hm].
    exists (m :: ms). simpl. rewrite Hm, Hms. split; [reflexivity|].
    split; [simpl; congruence|].
    intros [|i] o' Hi; simpl in Hi.
    + injection Hi as <-. exists m. rewrite Nat.add_0_r. split; [reflexivity|exact Hm].
    + destruct (Hnth i o' Hi) as [m' [Hm' Hmo]]. exists m'. split; [exact Hm'|].
      rewrite <- Hmo. f_equal. lia.
Qed.

Lemma map_offers_from_typeerror pf idx data :
  Exists (fun o => itineraries o = []) data ->
  exists e, map_offers_from pf idx data = Throw e.
Proof.
  intro H. revert idx. induction H as [o rest Ho|o rest Hex IH]; intro idx; simpl.
  - unfold map_offer. rewrite Ho. eexists. reflexivity.
  - destruct (map_offer pf idx o); [|eexists; reflexivity].
    destruct (IH (S idx)) as [e He]. rewrite He. eexists. reflexivity.
Qed.

(** The only error the mapping callback raises is the [TypeError] of an
    offer without itineraries, so the first such offer ends the map. *)
Lemma map_offers_from_throw pf idx data e :
  map_offers_from pf idx data = Throw e -> e = TypeError.
Proof.
  revert idx. induction data as [|o rest IH]; intro idx; simpl; [discriminate|].
  unfold map_offer at 1. destruct (itineraries o); [congruence|].
  destruct (map_offers_from pf (S idx) rest) eqn:Hr; [discriminate|].
  intro He. injection He as <-. exact (IH _ Hr).
Qed.

(** C4 *)
(** Claim C4, counterexample: an offer whose [itineraries] list is empty
    makes [offer.itineraries[0].segments] throw, so the mapping produces
    no Option at all for a one-offer [data] list. *)
Lemma map_offers_counterexample :
  map_offers parseFloat_digits [mk_offer (Some "1") "100" []] = Throw TypeError.
Proof. reflexivity. Qed.

(** Claim C4, amended: when every offer of [data] has at least one
    itinerary, the mapping yields exactly one Option per offer, the
    [i]-th Option being the mapping of the [i]-th offer at index [i]; if
    some offer has no itinerary, the whole mapping throws a TypeError. *)
Theorem map_offers_total (parseFloat : string -> jsnum) (data : list offer) :
  (Forall (fun o => itineraries o <> []) data ->
   exists ms, map_offers parseFloat data = Ok ms /\ length ms = length data /\
     forall i o, nth_error data i = Some o ->
       exists m, nth_error ms i = Some m /\ map_offer parseFloat i o = Ok m) /\
  (Exists (fun o => itineraries o = []) data ->
   map_offers parseFloat data = Throw TypeError).
Proof.
  split.
  - intro H. apply (map_offers_from_ok parseFloat 0 data H).
  - intro H. destruct (map_offers_from_typeerror parseFloat 0 data H) as [e He].
    unfold map_offers. rewrite He.
    apply map_offers_from_throw in He. rewrite He. reflexivity.
Qed.

Definition one_itin : list itinerary :=
  [{| itin_duration := Some "PT3H"; itin_segments := [mk_segment "JFK" "LAX" "PT3H"] |}].

Lemma map_offers_total_witness :
  Forall (fun o => itineraries o <> []) [mk_offer None "200" one_itin; mk_offer None "150" one_itin] /\
  Exists (fun o => itineraries o = []) [mk_offer None "200" one_itin; mk_offer None "150" []] /\
  (exists ms, map_offers parseFloat_digits [mk_offer None "200" one_itin; mk_offer None "150" one_itin] = Ok ms /\
     length ms = length [mk_offer None "200" one_itin; mk_offer None "150" one_itin] /\
     forall i o, nth_error [mk_offer None "200" one_itin; mk_offer None "150" one_itin] i = Some o ->
       exists m, nth_error ms i = Some m /\ map_offer parseFloat_digits i o = Ok m) /\
  map_offers parseFloat_digits [mk_offer None "200" one_itin; mk_offer None "150" []] = Throw TypeError.
Proof.
  assert (H1 : Forall (fun o => itineraries o <> [])
                      [mk_offer None "200" one_itin; mk_offer None "150" one_itin])
    by (repeat constructor; discriminate).
  assert (H2 : Exists (fun o => itineraries o = [])
                      [mk_offer None "200" one_itin; mk_offer None "150" []])
    by (right; left; reflexivity).
  split; [exact H1|]. split; [exact H2|]. split.
  - apply (proj1 (map_offers_total parseFloat_digits _)). exact H1.
  - apply (proj2 (map_offers_total parseFloat_digits _)). exact H2.
Defined.

Lemma map_offer_transfers pf i o m :
  map_offer pf i o = Ok m ->
  o_transfers m = Z.max 0 (Z.of_nat (length (o_legs m)) - 1).
Proof.
  unfold map_offer. destruct (itineraries o); [discriminate|].
  intro H. injection H as <-. reflexivity.
Qed.

Lemma map_offers_from_forall pf idx data ms (P : flight_option -> Prop) :
  (forall i o m, map_offer pf i o = Ok m -> P m) ->
  map_offers_from pf idx data = Ok ms -> Forall P ms.
Proof.
  intro HP. revert idx ms. induction data as [|o rest IH]; intros idx ms; simpl.
  - intro H. injection H as <-. constructor.
  - destruct (map_offer pf idx o) as [m|] eqn:Hm; [|discriminate].
    destruct (map_offers_from pf (S idx) rest) as [ms'|] eqn:Hr; [|discriminate].
    intro H. injection H as <-. constructor; [exact (HP _ _ _ Hm)|exact (IH _ _ Hr)].
Qed.

(** C9 *)
(** Claim C9, counterexample: an offer whose first itinerary has no
    segment maps to an Option with no legs and [transfers] 0, not
    [legs.length - 1] = -1. *)
Lemma transfers_counterexample :
  exists m, map_offer parseFloat_digits 0
              (mk_offer None "90" [{| itin_duration := Some "PT1H"; itin_segments := [] |}])
            = Ok m /\ o_transfers m <> (Z.of_nat (length (o_legs m)) - 1)%Z.
Proof. eexists. split; [reflexivity|]. simpl. discriminate. Qed.

(** Claim C9, amended: every Option of the mapping has
    [transfers = max(0, legs.length - 1)]: it is never negative, and it is
    [legs.length - 1] whenever the Option has at least one leg (0 for a
    single leg). *)
Theorem mapped_transfers (parseFloat : string -> jsnum) (data : list offer)
        (ms : list flight_option) :
  map_offers parseFloat data = Ok ms ->
  Forall (fun m =>
    o_transfers m = Z.max 0 (Z.of_nat (length (o_legs m)) - 1) /\
    (0 <= o_transfers m)%Z /\
    (o_legs m <> [] -> o_transfers m = Z.of_nat (length (o_legs m)) - 1)%Z) ms.
Proof.
  apply map_offers_from_forall. intros i o m Hm.
  pose proof (map_offer_transfers _ _ _ _ Hm) as Ht. rewrite Ht.
  split; [reflexivity|]. split; [lia|].
  intro Hne. destruct (o_legs m); [congruence|]. simpl length. lia.
Qed.

Lemma mapped_transfers_witness :
  exists ms, map_offers parseFloat_digits [mk_offer None "200" one_itin] = Ok ms /\
  Forall (fun m =>
    o_transfers m = Z.max 0 (Z.of_nat (length (o_legs m)) - 1) /\
    (0 <= o_transfers m)%Z /\
    (o_legs m <> [] -> o_transfers m = Z.of_nat (length (o_legs m)) - 1)%Z) ms.
Proof.
  eexists. split; [reflexivity|].
  apply (mapped_transfers parseFloat_digits [mk_offer None "200" one_itin]).
  reflexivity.
Defined.

(** Options built by the mapping carry no [_score] property. *)
Lemma mapped_no_score pf data ms :
  map_offers pf data = Ok ms -> Forall (fun m => o_score m = None) ms.
Proof.
  apply map_offers_from_forall. intros i o m. unfold map_offer.
  destruct (itineraries o); [discriminate|]. intro H. injection H as <-. reflexivity.
Qed.






(** ** Upstream errors and missing data *)

(** C8 *)
(** Claim C8: when the parsed search response has an empty (or absent)
    [errors] list and its [data] is absent or not an array, the pipeline
    returns the empty Option list, for every query and every
    optimize value. *)
Theorem process_body_no_data (parseFloat : string -> jsnum) (q : query) (res : search_body) :
  (res_errors res = None \/ res_errors res = Some []) ->
  res_data res = DataOther ->
  process_body parseFloat q res = Ok [].
Proof.
  intros He Hd. unfold process_body.
  destruct He as [He|He]; rewrite He, Hd; simpl;
  unfold rank; destruct (String.eqb (optimize_mode (q_optimize q)) "shortest");
  try destruct (String.eqb (optimize_mode (q_optimize q)) "cheapest"); reflexivity.
Qed.

Definition sample_query : query :=
  {| q_from := "JFK"; q_to := "LAX"; q_start := "2024-06-01"; q_end := None;
     q_pax := None; q_optimize := Some "cheapest" |}.

Lemma process_body_no_data_witness :
  ({| res_errors := Some []; res_data := DataOther |} : search_body).(res_errors) = Some [] /\
  process_body parseFloat_digits sample_query {| res_errors := Some []; res_data := DataOther |} = Ok [].
Proof.
  split; [reflexivity|].
  apply process_body_no_data; [right|]; reflexivity.
Defined.

(** For a response body that reaches the check of line 148, a non-empty
    [errors] list ends the pipeline with the joined messages, whatever
    [data] holds. *)
Lemma process_body_errors pf q es data e0 :
  es <> [] ->
  process_body pf q {| res_errors := Some es; res_data := data |} =
  Throw (Error ("Amadeus error: " ++ join " | " (map err_text es))) /\
  (In e0 es -> truthy_str (err_detail e0) = true ->
     In (js_String_opt (err_detail e0)) (map err_text es)) /\
  (In e0 es -> truthy_str (err_detail e0) = false -> truthy_str (err_title e0) = true ->
     In (js_String_opt (err_title e0)) (map err_text es)) /\
  (In e0 es -> truthy_str (err_detail e0) = false -> truthy_str (err_title e0) = false ->
     In (err_json e0) (map err_text es)).
Proof.
  intro Hne. split.
  - destruct es; [congruence|]. reflexivity.
  - split; [|split]; intros Hin Hd; [|intro Ht|intro Ht];
      apply (in_map err_text) in Hin; unfold err_text in Hin at 1;
      rewrite Hd in Hin; try rewrite Ht in Hin; exact Hin.
Qed.

Example process_body_two_errors :
  process_body parseFloat_digits sample_query
    {| res_errors := Some [{| err_detail := Some "Bad date"; err_title := Some "INVALID";
                              err_json := "{}" |};
                           {| err_detail := None; err_title := Some "NO FARE";
                              err_json := "{}" |};
                           {| err_detail := Some EmptyString; err_title := None;
                              err_json := "raw-entry-3" |}];
       res_data := DataArray [mk_offer None "100" []] |}
  = Throw (Error "Amadeus error: Bad date | NO FARE | raw-entry-3").
Proof. reflexivity. Qed.

Definition ok_token : http_response token_body :=
  {| status := 200; body := {| access_token := Some "abc" |} |}.

Definition invalid_date_error : upstream_error :=
  {| err_detail := Some "Invalid departure date"; err_title := Some "INVALID DATE";
     err_json := "raw-invalid-date" |}.

(** C1 *)
(** Claim C1, failing input: the flight-offers endpoint reports errors
    with a 4xx status (here 400 with one error entry).  ky's [.json()]
    raises its [HTTPError] for that status before line 148 runs (for a
    start date [new Date] reads; otherwise [format] has already thrown a
    RangeError), so the search fails with the HTTP error and the entry's
    detail never reaches the message; the check of line 148 only sees error lists sent with a
    2xx status ([process_body_errors]). *)
Theorem search_error_status_hides_details (parseFloat : string -> jsnum)
        (format_date : string -> string) (valid_date : string -> bool)
        (nts : Q -> string) :
  (valid_date (q_start sample_query) = true ->
   searchAmadeus parseFloat format_date valid_date nts sample_query ok_token
     {| status := 400; body := {| res_errors := Some [invalid_date_error];
                                   res_data := DataOther |} |}
   = Throw (HTTPError 400)) /\
  (forall m, searchAmadeus parseFloat format_date valid_date nts sample_query ok_token
     {| status := 400; body := {| res_errors := Some [invalid_date_error];
                                   res_data := DataOther |} |}
   <> Throw (Error m)) /\
  process_body parseFloat sample_query
    {| res_errors := Some [invalid_date_error]; res_data := DataOther |}
  = Throw (Error "Amadeus error: Invalid departure date").
Proof.
  split; [|split].
  - intro Hv. unfold searchAmadeus, request_params, format_checked.
    rewrite Hv. reflexivity.
  - intro m. unfold searchAmadeus, request_params, format_checked.
    destruct (valid_date (q_start sample_query)); discriminate.
  - reflexivity.
Qed.

Lemma search_error_status_hides_details_witness :
  (fun _ : string => true) (q_start sample_query) = true /\
  searchAmadeus parseFloat_digits (fun s => s) (fun _ => true) (fun _ => "?")
    sample_query ok_token
    {| status := 400; body := {| res_errors := Some [invalid_date_error];
                                  res_data := DataOther |} |}
  = Throw (HTTPError 400).
Proof.
  split; [reflexivity|].
  apply (proj1 (search_error_status_hides_details parseFloat_digits (fun s => s)
                  (fun _ => true) (fun _ => "?"))).
  reflexivity.
Defined.

(** ** Request parameters *)

(** C6 *)
(** Claim C6: the search parameters are exactly origin, destination,
    the formatted departure date, [adults] = [pax] when truthy and 1
    otherwise, currency USD and cap 30, followed by [returnDate] (the
    formatted [end]) exactly when [end] is supplied (truthy); no [sort]
    parameter is ever sent. *)
Theorem build_params_spec (format_date : string -> string) (nts : Q -> string)
        (q : query) :
  build_params format_date nts q =
    app [("originLocationCode", q_from q);
     ("destinationLocationCode", q_to q);
     ("departureDate", format_date (q_start q));
     ("adults", js_number_to_string nts (match q_pax q with
                                         | Some n => if Qeq_bool n 0 then 1 else n
                                         | None => 1 end));
     ("currencyCode", "USD");
     ("max", "30")]
    (match q_end q with
       | Some e => if String.eqb e EmptyString then [] else [("returnDate", format_date e)]
       | None => []
       end) /\
  ~ In "sort" (map fst (build_params format_date nts q)).
Proof.
  destruct q as [f t s e pax o]; unfold build_params, adults_param; simpl.
  destruct e as [e|]; simpl;
    [destruct (String.eqb e EmptyString); simpl|];
    (split; [reflexivity|]); simpl; intuition discriminate.
Qed.

Example build_params_example :
  build_params (fun s => s) (fun _ => "?")
    {| q_from := "JFK"; q_to := "LAX"; q_start := "2024-06-01"; q_end := Some "2024-06-08";
       q_pax := Some 2; q_optimize := None |}
  = [("originLocationCode", "JFK"); ("destinationLocationCode", "LAX");
     ("departureDate", "2024-06-01"); ("adults", "2"); ("currencyCode", "USD");
     ("max", "30"); ("returnDate", "2024-06-08")].
Proof. reflexivity. Qed.

(** ** Token acquisition *)

(** C7 *)
(** Claim C7, counterexample: a 200 response to the credential exchange
    whose body has no [access_token] field does not fail: the function
    returns [undefined]. *)
Lemma token_missing_counterexample :
  getAccessToken {| status := 200; body := {| access_token := None |} |} = Ok None.
Proof. reflexivity. Qed.

(** Claim C7, amended: [getAccessToken] fails with ky's HTTP error
    exactly when the exchange answers with a non-2xx status; otherwise it
    returns the body's [access_token] field as it is, which is
    [undefined] when the field is omitted. *)
Theorem getAccessToken_spec (r : http_response token_body) :
  getAccessToken r =
    if ((200 <=? status r) && (status r <? 300))%Z then Ok (access_token (body r))
    else Throw (HTTPError (status r)).
Proof.
  unfold getAccessToken, ky_json.
  destruct ((200 <=? status r) && (status r <? 300))%Z; reflexivity.
Qed.

(** ** Duration parsing *)


















(* ================================================================== *)
(** * Further properties of the code *)

(** ** Durations are never negative *)

Lemma digit_prefix_all_digits s : all_digits (fst (digit_prefix s)) = true.
Proof.
  induction s as [|c r IH]; [reflexivity|]. cbn [digit_prefix].
  destruct (is_digit c) eqn:Hc; [|reflexivity].
  destruct (digit_prefix r) as [ds t]. simpl in *. rewrite Hc. exact IH.
Qed.

Lemma opt_group_all_digits x s ds r :
  opt_group x s = (Some ds, r) -> all_digits ds = true.
Proof.
  unfold opt_group. pose proof (digit_prefix_all_digits s) as H.
  destruct (digit_prefix s) as [d t]; simpl in H.
  destruct d as [|c d']; [discriminate|].
  destruct t as [|c' t']; [discriminate|].
  destruct (Ascii.eqb c' x); [|discriminate]. intro E. injection E as <- _. exact H.
Qed.

Lemma parseInt_acc_nonneg acc s :
  (0 <= acc)%Z -> all_digits s = true -> (0 <= parseInt_acc acc s)%Z.
Proof.
  revert acc. induction s as [|c r IH]; intros acc Hacc Hs; [exact Hacc|].
  cbn [all_digits] in Hs. apply andb_prop in Hs as [Hc Hr].
  cbn [parseInt_acc]. apply IH; [|exact Hr].
  unfold is_digit in Hc. apply andb_prop in Hc as [H1 _].
  apply Nat.leb_le in H1. lia.
Qed.

Lemma group_value_nonneg x s r g :
  opt_group x s = (g, r) -> (0 <= group_value g)%Z.
Proof.
  destruct g as [ds|]; intro H; [|reflexivity].
  apply opt_group_all_digits in H. unfold group_value.
  destruct (String.eqb ds EmptyString); [lia|].
  apply parseInt_acc_nonneg; [lia|exact H].
Qed.

Lemma parseISO_nonneg (iso : string) : (0 <= parseISODurationToMinutes iso)%Z.
Proof.
  unfold parseISODurationToMinutes.
  destruct (after_PT iso) as [r|]; [|lia].
  destruct (opt_group "H" r) as [g1 r1] eqn:H1.
  destruct (opt_group "M" r1) as [g2 r2] eqn:H2.
  pose proof (group_value_nonneg _ _ _ _ H1).
  pose proof (group_value_nonneg _ _ _ _ H2). lia.
Qed.

(** X4 *)
(** [parseISODurationToMinutes] never returns a negative number of
    minutes, whatever its argument. *)
Theorem parseDuration_nonneg (iso : string) :
  (0 <= parseISODurationToMinutes iso)%Z.
Proof. apply parseISO_nonneg. Qed.

(** ** Query parameters *)

(** [params.get(name)]: the value of the first pair of that name. *)
Fixpoint params_get (k : string) (ps : list (string * string)) : option string :=
  match ps with
  | [] => None
  | (k', v) :: rest => if String.eqb k k' then Some v else params_get k rest
  end.

Definition count_name (k : string) (ps : list (string * string)) : nat :=
  length (filter (fun p => String.eqb (fst p) k) ps).

Lemma params_get_filter k k' ps :
  k' <> k ->
  params_get k' (filter (fun p => negb (String.eqb (fst p) k)) ps) = params_get k' ps.
Proof.
  intro Hne. induction ps as [|[a b] rest IH]; [reflexivity|]. cbn [filter fst].
  destruct (String.eqb_spec a k) as [->|Ha]; simpl.
  - apply String.eqb_neq in Hne. rewrite Hne. exact IH.
  - rewrite IH. reflexivity.
Qed.

Lemma count_name_filter k ps :
  count_name k (filter (fun p => negb (String.eqb (fst p) k)) ps) = 0%nat.
Proof.
  induction ps as [|[a b] rest IH]; [reflexivity|]. cbn [filter fst].
  destruct (String.eqb a k) eqn:Ha; simpl; [exact IH|].
  unfold count_name in *. simpl. rewrite Ha. exact IH.
Qed.

(** X5 *)
(** [params.set(k, v)] then [params.get(k)] gives [v] back; the value of
    every other name is unchanged; and exactly one pair named [k] is left. *)
Theorem params_set_get (k v : string) (ps : list (string * string)) :
  params_get k (params_set k v ps) = Some v /\
  (forall k', k' <> k -> params_get k' (params_set k v ps) = params_get k' ps) /\
  count_name k (params_set k v ps) = 1%nat.
Proof.
  induction ps as [|[a b] rest [IH1 [IH2 IH3]]].
  - simpl. rewrite String.eqb_refl. split; [reflexivity|]. split.
    + intros k' Hk'. apply String.eqb_neq in Hk'. rewrite Hk'. reflexivity.
    + unfold count_name. simpl. rewrite String.eqb_refl. reflexivity.
  - cbn [params_set]. destruct (String.eqb_spec k a) as [<-|Hka].
    + split; [simpl; rewrite String.eqb_refl; reflexivity|]. split.
      * intros k' Hk'. simpl. apply String.eqb_neq in Hk' as Hb. rewrite Hb.
        apply params_get_filter. apply String.eqb_neq, Hb.
      * unfold count_name. simpl. rewrite String.eqb_refl. simpl.
        f_equal. apply count_name_filter.
    + split; [simpl; apply String.eqb_neq in Hka; rewrite Hka; exact IH1|]. split.
      * intros k' Hk'. simpl. destruct (String.eqb k' a); [reflexivity|]. apply IH2, Hk'.
      * unfold count_name in *. simpl.
        replace (String.eqb a k) with false
          by (symmetry; apply String.eqb_neq; intro E; apply Hka; symmetry; exact E).
        exact IH3.
Qed.

(** X6 *)
(** The search request never sends a parameter name twice. *)
Theorem build_params_nodup (format_date : string -> string) (nts : Q -> string)
        (q : query) :
  NoDup (map fst (build_params format_date nts q)).
Proof.
  unfold build_params. destruct (truthy_str (q_end q)); simpl;
  repeat constructor; simpl; intuition discriminate.
Qed.

(** ** The passenger count *)

Lemma parseInt_acc_uint u acc :
  parseInt_acc (Z.of_nat acc) (uint_to_string u) = Z.of_nat (Nat.of_uint_acc u acc).
Proof.
  revert acc.
  induction u as [|u IH|u IH|u IH|u IH|u IH|u IH|u IH|u IH|u IH|u IH]; intro acc;
    [reflexivity| ..];
    cbn [uint_to_string parseInt_acc Nat.of_uint_acc]; rewrite <- IH;
    f_equal; rewrite Nat.tail_mul_spec;
    match goal with
    | |- context [nat_of_ascii ?c] =>
        let v := eval vm_compute in (nat_of_ascii c) in change (nat_of_ascii c) with v
    end; lia.
Qed.

Lemma parseInt_nat_to_string n : parseInt10 (nat_to_string n) = Z.of_nat n.
Proof.
  unfold parseInt10, nat_to_string.
  change 0%Z with (Z.of_nat 0). rewrite parseInt_acc_uint.
  change (Nat.of_uint_acc (Nat.to_uint n) 0) with (Nat.of_uint (Nat.to_uint n)).
  rewrite DecimalNat.Unsigned.of_to. reflexivity.
Qed.






(** ** Ranking: bounds of the balanced score, idempotence *)

Lemma Qmin_cases x y : Qmin x y = x \/ Qmin x y = y.
Proof. unfold Qmin, GenericMinMax.gmin. destruct (Qcompare x y); auto. Qed.

Lemma Qmax_cases x y : Qmax x y = x \/ Qmax x y = y.
Proof. unfold Qmax, GenericMinMax.gmax. destruct (Qcompare x y); auto. Qed.






Lemma fold_min2_nan xs acc :
  acc = JNaN \/ In JNaN xs -> fold_left js_min2 xs acc = JNaN.
Proof.
  revert acc. induction xs as [|a r IH]; intros acc H; simpl.
  - destruct H as [H|[]]. exact H.
  - apply IH. destruct H as [->|[->|H]]; [left; reflexivity|left|right; exact H].
    destruct acc; reflexivity.
Qed.




(** *** JS numbers up to the representation of rationals *)

Definition jeq (a b : jsnum) : Prop :=
  match a, b with
  | JNum x, JNum y => x == y
  | JNaN, JNaN | JInf, JInf | JNegInf, JNegInf => True
  | _, _ => False
  end.

Lemma jeq_refl a : jeq a a.
Proof. destruct a; simpl; [reflexivity|exact I..]. Qed.

Lemma js_neg_jeq a a' : jeq a a' -> jeq (js_neg a) (js_neg a').
Proof.
  destruct a, a'; simpl; intro H; try contradiction; try exact I.
  rewrite H. reflexivity.
Qed.

Lemma js_add_jeq a a' b b' : jeq a a' -> jeq b b' -> jeq (js_add a b) (js_add a' b').
Proof.
  destruct a, a', b, b'; simpl; intros H1 H2; try contradiction; try exact I.
  rewrite H1, H2. reflexivity.
Qed.

Lemma js_sub_jeq a a' b b' : jeq a a' -> jeq b b' -> jeq (js_sub a b) (js_sub a' b').
Proof. intros H1 H2. apply js_add_jeq; [exact H1|apply js_neg_jeq, H2]. Qed.

Lemma js_scale_inf_jeq x x' i : x == x' -> jeq (js_scale_inf x i) (js_scale_inf x' i).
Proof.
  intro H. unfold js_scale_inf. rewrite (Qcompare_comp x x' H 0 0 (Qeq_refl 0)).
  apply jeq_refl.
Qed.

Lemma js_mul_jeq a a' b b' : jeq a a' -> jeq b b' -> jeq (js_mul a b) (js_mul a' b').
Proof.
  destruct a, a', b, b'; simpl; intros H1 H2; try contradiction; try exact I;
  first [apply js_scale_inf_jeq; assumption | rewrite H1, H2; reflexivity].
Qed.

Lemma js_div_jeq a a' b b' : jeq a a' -> jeq b b' -> jeq (js_div a b) (js_div a' b').
Proof.
  destruct a, a', b, b'; simpl; intros H1 H2; try contradiction; try exact I;
  try reflexivity.
  - rewrite (Qeqb_comp q1 q2 H2 0 0 (Qeq_refl 0)).
    destruct (Qeq_bool q2 0); [apply js_scale_inf_jeq, H1|simpl; rewrite H1, H2; reflexivity].
  - rewrite (Qcompare_comp q q0 H2 0 0 (Qeq_refl 0)). apply jeq_refl.
  - rewrite (Qcompare_comp q q0 H2 0 0 (Qeq_refl 0)). apply jeq_refl.
Qed.

Lemma js_max2_jeq a a' b b' : jeq a a' -> jeq b b' -> jeq (js_max2 a b) (js_max2 a' b').
Proof.
  destruct a, a', b, b'; simpl; intros H1 H2; try contradiction; try exact I;
  first [exact (Q.max_compat _ _ H1 _ _ H2) | assumption].
Qed.

Lemma cmp_gt0_jeq a a' : jeq a a' -> cmp_gt0 a = cmp_gt0 a'.
Proof.
  destruct a, a'; simpl; intro H; try contradiction; try reflexivity.
  rewrite (Qleb_comp q q0 H 0 0 (Qeq_refl 0)). reflexivity.
Qed.

Lemma balanced_score_jeq minP minP' maxP maxP' minT minT' maxT maxT' m :
  jeq minP minP' -> jeq maxP maxP' -> jeq minT minT' -> jeq maxT maxT' ->
  jeq (balanced_score minP maxP minT maxT m) (balanced_score minP' maxP' minT' maxT' m).
Proof.
  intros H1 H2 H3 H4. unfold balanced_score.
  apply js_add_jeq; apply js_mul_jeq; try apply jeq_refl;
  (apply js_div_jeq; [apply js_sub_jeq; [apply jeq_refl|assumption]
                     |apply js_max2_jeq; [apply jeq_refl|apply js_sub_jeq; assumption]]).
Qed.

Lemma js_le_trans a b c : js_le a b -> js_le b c -> js_le a c.
Proof.
  destruct a, b, c; simpl; intros H1 H2; try contradiction; try exact I.
  eapply Qle_trans; eassumption.
Qed.

Lemma js_le_antisym a b : js_le a b -> js_le b a -> jeq a b.
Proof.
  destruct a, b; simpl; intros H1 H2; try contradiction; try exact I.
  apply Qle_antisym; assumption.
Qed.

Lemma js_min2_spec a b :
  a <> JNaN -> b <> JNaN ->
  (js_min2 a b = a \/ js_min2 a b = b) /\ js_le (js_min2 a b) a /\ js_le (js_min2 a b) b.
Proof.
  intros Ha Hb. destruct a, b; try congruence; simpl;
  try (split; [first [left; reflexivity|right; reflexivity]|split; simpl; first [exact I|apply Qle_refl]]).
  split; [destruct (Qmin_cases q q0) as [->| ->]; auto|split; [apply Q.le_min_l|apply Q.le_min_r]].
Qed.

Lemma js_max2_spec a b :
  a <> JNaN -> b <> JNaN ->
  (js_max2 a b = a \/ js_max2 a b = b) /\ js_le a (js_max2 a b) /\ js_le b (js_max2 a b).
Proof.
  intros Ha Hb. destruct a, b; try congruence; simpl;
  try (split; [first [left; reflexivity|right; reflexivity]|split; simpl; first [exact I|apply Qle_refl]]).
  split; [destruct (Qmax_cases q q0) as [->| ->]; auto|split; [apply Q.le_max_l|apply Q.le_max_r]].
Qed.

Lemma fold_min2_spec xs acc :
  ~ In JNaN (acc :: xs) ->
  In (fold_left js_min2 xs acc) (acc :: xs) /\
  forall y, In y (acc :: xs) -> js_le (fold_left js_min2 xs acc) y.
Proof.
  revert acc. induction xs as [|a r IH]; intros acc Hn; simpl.
  - split; [left; reflexivity|]. intros y [->|[]].
    destruct y; simpl; [apply Qle_refl|apply Hn; left; reflexivity|exact I..].
  - assert (Ha : acc <> JNaN) by (intro E; apply Hn; left; congruence).
    assert (Hb : a <> JNaN) by (intro E; apply Hn; right; left; congruence).
    destruct (js_min2_spec acc a Ha Hb) as [Hc [Hl1 Hl2]].
    destruct (IH (js_min2 acc a)) as [Hin Hle].
    { intros [E|E]; [destruct Hc as [Hc|Hc]; rewrite Hc in E; congruence|].
      apply Hn. right. right. exact E. }
    split.
    + destruct Hin as [Hm|Hr]; [|right; right; exact Hr].
      rewrite <- Hm. destruct Hc as [-> | ->]; auto.
    + intros y [<-|[<-|Hy]].
      * eapply js_le_trans; [apply Hle; left; reflexivity|exact Hl1].
      * eapply js_le_trans; [apply Hle; left; reflexivity|exact Hl2].
      * apply Hle. right. exact Hy.
Qed.

Lemma fold_max2_spec xs acc :
  ~ In JNaN (acc :: xs) ->
  In (fold_left js_max2 xs acc) (acc :: xs) /\
  forall y, In y (acc :: xs) -> js_le y (fold_left js_max2 xs acc).
Proof.
  revert acc. induction xs as [|a r IH]; intros acc Hn; simpl.
  - split; [left; reflexivity|]. intros y [->|[]].
    destruct y; simpl; [apply Qle_refl|apply Hn; left; reflexivity|exact I..].
  - assert (Ha : acc <> JNaN) by (intro E; apply Hn; left; congruence).
    assert (Hb : a <> JNaN) by (intro E; apply Hn; right; left; congruence).
    destruct (js_max2_spec acc a Ha Hb) as [Hc [Hl1 Hl2]].
    destruct (IH (js_max2 acc a)) as [Hin Hle].
    { intros [E|E]; [destruct Hc as [Hc|Hc]; rewrite Hc in E; congruence|].
      apply Hn. right. right. exact E. }
    split.
    + destruct Hin as [Hm|Hr]; [|right; right; exact Hr].
      rewrite <- Hm. destruct Hc as [-> | ->]; auto.
    + intros y [<-|[<-|Hy]].
      * eapply js_le_trans; [exact Hl1|apply Hle; left; reflexivity].
      * eapply js_le_trans; [exact Hl2|apply Hle; left; reflexivity].
      * apply Hle. right. exact Hy.
Qed.

Lemma fold_max2_nan xs acc :
  acc = JNaN \/ In JNaN xs -> fold_left js_max2 xs acc = JNaN.
Proof.
  revert acc. induction xs as [|a r IH]; intros acc H; simpl.
  - destruct H as [H|[]]. exact H.
  - apply IH. destruct H as [->|[->|H]]; [left; reflexivity|left|right; exact H].
    destruct acc; reflexivity.
Qed.

Definition is_nan (a : jsnum) : bool := match a with JNaN => true | _ => false end.

Lemma nan_dec xs : In JNaN xs \/ ~ In JNaN xs.
Proof.
  destruct (existsb is_nan xs) eqn:E; [left|right].
  - apply existsb_exists in E as [x [Hx Hn]]. destruct x; try discriminate. exact Hx.
  - intro H. assert (existsb is_nan xs = true) by (apply existsb_exists; exists JNaN; auto).
    congruence.
Qed.

Lemma js_min_list_perm xs ys : Permutation xs ys -> jeq (js_min_list xs) (js_min_list ys).
Proof.
  intro Hp. unfold js_min_list. destruct (nan_dec xs) as [Hn|Hn].
  - rewrite !fold_min2_nan; [exact I|right; apply (Permutation_in _ Hp), Hn|right; exact Hn].
  - assert (Hn' : ~ In JNaN ys) by (intro H; apply Hn, (Permutation_in _ (Permutation_sym Hp)), H).
    assert (Hx : ~ In JNaN (JInf :: xs)) by (intros [E|E]; [discriminate|contradiction]).
    assert (Hy : ~ In JNaN (JInf :: ys)) by (intros [E|E]; [discriminate|contradiction]).
    destruct (fold_min2_spec xs JInf Hx) as [Ix Lx].
    destruct (fold_min2_spec ys JInf Hy) as [Iy Ly].
    apply js_le_antisym.
    + apply Lx. destruct Iy as [E|E]; [left; exact E|right; apply (Permutation_in _ (Permutation_sym Hp)), E].
    + apply Ly. destruct Ix as [E|E]; [left; exact E|right; apply (Permutation_in _ Hp), E].
Qed.

Lemma js_max_list_perm xs ys : Permutation xs ys -> jeq (js_max_list xs) (js_max_list ys).
Proof.
  intro Hp. unfold js_max_list. destruct (nan_dec xs) as [Hn|Hn].
  - rewrite !fold_max2_nan; [exact I|right; apply (Permutation_in _ Hp), Hn|right; exact Hn].
  - assert (Hn' : ~ In JNaN ys) by (intro H; apply Hn, (Permutation_in _ (Permutation_sym Hp)), H).
    assert (Hx : ~ In JNaN (JNegInf :: xs)) by (intros [E|E]; [discriminate|contradiction]).
    assert (Hy : ~ In JNaN (JNegInf :: ys)) by (intros [E|E]; [discriminate|contradiction]).
    destruct (fold_max2_spec xs JNegInf Hx) as [Ix Lx].
    destruct (fold_max2_spec ys JNegInf Hy) as [Iy Ly].
    apply js_le_antisym.
    + apply Ly. destruct Ix as [E|E]; [left; exact E|right; apply (Permutation_in _ Hp), E].
    + apply Lx. destruct Iy as [E|E]; [left; exact E|right; apply (Permutation_in _ (Permutation_sym Hp)), E].
Qed.

Lemma price_key_set_score s m : price_key (set_score s m) = price_key m.
Proof. destruct m; reflexivity. Qed.

Lemma duration_key_set_score s m : duration_key (set_score s m) = duration_key m.
Proof. destruct m; reflexivity. Qed.

(** The bounds of the balanced score do not depend on the order of the
    list nor on [_score]. *)
Lemma score_of_perm l l' m :
  Permutation (map price_key l) (map price_key l') ->
  Permutation (map duration_key l) (map duration_key l') ->
  jeq (score_of l m) (score_of l' m).
Proof.
  intros Hp Ht. unfold score_of.
  apply balanced_score_jeq;
  first [apply js_min_list_perm; assumption | apply js_max_list_perm; assumption].
Qed.

(** X8 *)
(** Ranking is idempotent: ranking an already ranked list again, with
    the same optimize value, changes nothing.  This holds in the
    insertion-sort model whatever the prices; when a comparison is
    [NaN] the order an engine produces is implementation-defined. *)
Theorem rank_idempotent (opt : option string) (l : list flight_option) :
  rank opt (rank opt l) = rank opt l.
Proof.
  destruct (String.eqb_spec (optimize_mode opt) "shortest") as [Hs|Hs];
  [|destruct (String.eqb_spec (optimize_mode opt) "cheapest") as [Hc|Hc]].
  - rewrite !rank_shortest by exact Hs.
    apply sort_by_sorted_id, sort_by_sorted, by_key_asym.
  - rewrite !rank_cheapest by exact Hc.
    apply sort_by_sorted_id, sort_by_sorted, by_key_asym.
  - rewrite (rank_balanced opt l) by assumption.
    set (l' := map (set_score None) (sort_by (by_key (score_of l)) l)).
    rewrite rank_balanced by assumption.
    assert (Hperm_p : Permutation (map price_key l') (map price_key l)).
    { unfold l'. rewrite map_map.
      erewrite map_ext; [|intro m; apply price_key_set_score].
      apply Permutation_map, Permutation_sym, sort_by_perm. }
    assert (Hperm_t : Permutation (map duration_key l') (map duration_key l)).
    { unfold l'. rewrite map_map.
      erewrite map_ext; [|intro m; apply duration_key_set_score].
      apply Permutation_map, Permutation_sym, sort_by_perm. }
    rewrite (sort_by_ext _ (by_key (score_of l')) (by_key (score_of l))).
    + rewrite sort_by_sorted_id.
      * rewrite map_ext_Forall with (g := fun m => m), map_id; [reflexivity|].
        eapply Forall_impl; [|apply Forall_map_set_score_none].
        intros a Ha. apply set_score_none, Ha.
      * apply sorted_map_set_score_none; [|apply sort_by_sorted, by_key_asym].
        intros a b. unfold not_after, by_key. rewrite !score_of_set_score. exact (fun h => h).
    + intros x y _ _. unfold by_key. apply cmp_gt0_jeq, js_sub_jeq; apply score_of_perm; assumption.
Qed.

(** ** What the search returns *)

Lemma map_offers_from_nth pf idx data ms :
  map_offers_from pf idx data = Ok ms ->
  length ms = length data /\
  forall i o, nth_error data i = Some o ->
    exists m, nth_error ms i = Some m /\ map_offer pf (idx + i) o = Ok m.
Proof.
  revert idx ms. induction data as [|o rest IH]; intros idx ms; simpl.
  - intro H. injection H as <-. split; [reflexivity|]. intros [|i] o H; discriminate H.
  - destruct (map_offer pf idx o) as [m|] eqn:Hm; [|discriminate].
    destruct (map_offers_from pf (S idx) rest) as [ms'|] eqn:Hr; [|discriminate].
    intro H. injection H as <-. destruct (IH _ _ Hr) as [Hlen Hnth].
    split; [simpl; congruence|].
    intros [|i] o' Hi; simpl in Hi.
    + injection Hi as <-. exists m. rewrite Nat.add_0_r. auto.
    + destruct (Hnth i o' Hi) as [m' [Hm' Ho]]. exists m'. split; [exact Hm'|].
      rewrite <- Ho. f_equal. lia.
Qed.

Definition option_shape (m : flight_option) : Prop :=
  o_provider m = "AMADEUS" /\ o_notes m = [] /\ o_score m = None /\
  (0 <= o_transfers m)%Z /\ (0 <= o_totalDurationMin m)%Z /\
  Forall (fun g => 0 <= leg_durationMin g)%Z (o_legs m).

Lemma map_offer_shape pf i o m : map_offer pf i o = Ok m -> option_shape m.
Proof.
  unfold map_offer. destruct (itineraries o) as [|it rest]; [discriminate|].
  intro H. injection H as <-. unfold option_shape; simpl.
  split; [reflexivity|]. split; [reflexivity|]. split; [reflexivity|].
  split; [lia|]. split; [apply parseISO_nonneg|].
  apply Forall_forall. intros g Hg. apply in_map_iff in Hg as [s [<- _]].
  apply parseISO_nonneg.
Qed.

(** Ranking a list of Options without [_score] only reorders it. *)
Lemma rank_reorders (opt : option string) (l : list flight_option) :
  Forall (fun m => o_score m = None) l -> Permutation l (rank opt l).
Proof.
  intro Hnone.
  destruct (String.eqb_spec (optimize_mode opt) "shortest") as [Hs|Hs];
  [|destruct (String.eqb_spec (optimize_mode opt) "cheapest") as [Hc|Hc]].
  - rewrite rank_shortest by exact Hs. apply sort_by_perm.
  - rewrite rank_cheapest by exact Hc. apply sort_by_perm.
  - rewrite rank_balanced by assumption.
    transitivity (map (set_score None) l).
    + rewrite map_ext_Forall with (g := fun m => m), map_id; [reflexivity|].
      eapply Forall_impl; [|exact Hnone]. intros a Ha. apply set_score_none, Ha.
    + apply Permutation_map, sort_by_perm.
Qed.

Lemma process_body_ranked_mapping (parseFloat : string -> jsnum) (q : query)
      (res : search_body) (ms : list flight_option) :
  process_body parseFloat q res = Ok ms ->
  exists mapped,
    map_offers parseFloat (match res_data res with DataArray l => l | DataOther => [] end)
      = Ok mapped /\
    Permutation mapped ms /\
    length ms = length (match res_data res with DataArray l => l | DataOther => [] end).
Proof.
  unfold process_body. destruct (res_errors res) as [[|e es]|]; [| discriminate |];
  destruct (map_offers parseFloat _) as [mapped|] eqn:Hm; try discriminate;
  intro H; injection H as <-;
  exists mapped; (split; [reflexivity|]);
  pose proof (rank_reorders (q_optimize q) mapped (mapped_no_score _ _ _ Hm)) as Hp;
  (split; [exact Hp|]);
  rewrite <- (Permutation_length Hp); exact (proj1 (map_offers_from_nth _ _ _ _ Hm)).
Qed.

(** Mapping offers that all have an itinerary succeeds, one Option per offer. *)
Lemma map_offers_ok (parseFloat : string -> jsnum) (data : list offer) :
  Forall (fun o => itineraries o <> []) data ->
  exists ms, map_offers parseFloat data = Ok ms /\ length ms = length data.
Proof.
  intro H. destruct (map_offers_from_ok parseFloat 0 data H) as [ms [Hm [Hl _]]].
  exists ms. split; assumption.
Qed.

(** X11 *)
(** When [process_body] (lines 148-197) succeeds, its result is a
    reordering of the mapped offers: one Option per offer of [data], no
    Option added, dropped or altered. *)
Theorem process_body_permutation (parseFloat : string -> jsnum) (q : query)
        (res : search_body) (ms : list flight_option) :
  process_body parseFloat q res = Ok ms ->
  exists mapped,
    map_offers parseFloat (match res_data res with DataArray l => l | DataOther => [] end)
      = Ok mapped /\
    Permutation mapped ms /\
    length ms = length (match res_data res with DataArray l => l | DataOther => [] end).
Proof. apply process_body_ranked_mapping. Qed.

(** X10 *)
(** Every Option that [process_body] returns has provider "AMADEUS",
    empty notes, no [_score] property, and non-negative transfers, total
    duration and leg durations. *)
Theorem process_body_shape (parseFloat : string -> jsnum) (q : query)
        (res : search_body) (ms : list flight_option) :
  process_body parseFloat q res = Ok ms -> Forall option_shape ms.
Proof.
  intro H. destruct (process_body_ranked_mapping _ _ _ _ H) as [mapped [Hm [Hp _]]].
  eapply Permutation_Forall; [exact Hp|].
  eapply (map_offers_from_forall parseFloat 0); [|exact Hm].
  apply map_offer_shape.
Qed.

Definition sample_body : search_body :=
  {| res_errors := None;
     res_data := DataArray [mk_offer (Some "o1") "200" one_itin; mk_offer None "150" one_itin] |}.

Lemma process_body_permutation_witness :
  exists ms, process_body parseFloat_digits sample_query sample_body = Ok ms /\
  exists mapped,
    map_offers parseFloat_digits (match res_data sample_body with DataArray l => l | DataOther => [] end)
      = Ok mapped /\
    Permutation mapped ms /\
    length ms = length (match res_data sample_body with DataArray l => l | DataOther => [] end).
Proof.
  eexists. split; [reflexivity|].
  apply (process_body_permutation parseFloat_digits sample_query sample_body). reflexivity.
Defined.

Lemma process_body_shape_witness :
  exists ms, process_body parseFloat_digits sample_query sample_body = Ok ms /\
             Forall option_shape ms.
Proof.
  eexists. split; [reflexivity|].
  apply (process_body_shape parseFloat_digits sample_query sample_body). reflexivity.
Defined.

(** ** Offer fields the mapping reads *)

(** X12 *)
(** Only the first itinerary of an offer is mapped: replacing the
    itineraries after the first one by any others yields the same Option
    (or the same error). *)
Theorem map_offer_first_itinerary (parseFloat : string -> jsnum) (i : nat) (o : offer)
        (it : itinerary) (rest rest' : list itinerary) :
  itineraries o = it :: rest ->
  map_offer parseFloat i o =
  map_offer parseFloat i {| offer_id := offer_id o; price_total := price_total o;
                            price_currency := price_currency o;
                            itineraries := it :: rest' |}.
Proof. intro H. unfold map_offer. rewrite H. reflexivity. Qed.

Definition itin_3h : itinerary :=
  {| itin_duration := Some "PT3H"; itin_segments := [mk_segment "JFK" "LAX" "PT3H"] |}.

Definition itin_back : itinerary :=
  {| itin_duration := Some "PT4H"; itin_segments := [mk_segment "LAX" "JFK" "PT4H"] |}.

Lemma map_offer_first_itinerary_witness :
  itineraries (mk_offer None "100" [itin_3h; itin_back]) = itin_3h :: [itin_back] /\
  map_offer parseFloat_digits 0 (mk_offer None "100" [itin_3h; itin_back]) =
  map_offer parseFloat_digits 0 {| offer_id := None; price_total := "100";
                                price_currency := "USD"; itineraries := [itin_3h] |}.
Proof.
  split; [reflexivity|].
  exact (map_offer_first_itinerary parseFloat_digits 0 (mk_offer None "100" [itin_3h; itin_back])
           itin_3h [itin_back] [] eq_refl).
Defined.

Lemma synthesized_id_inj i j :
  "am-" ++ nat_to_string i = "am-" ++ nat_to_string j -> i = j.
Proof.
  intro H. cbn [append] in H. injection H as H.
  apply (f_equal parseInt10) in H. rewrite !parseInt_nat_to_string in H. lia.
Qed.

(** X16 *)
(** The [i]-th Option of a successful mapping carries the offer's own id
    when it is truthy and ["am-<i>"] otherwise, and two offers at
    different positions that both lack an id get different ids. *)
Theorem mapped_ids (parseFloat : string -> jsnum) (data : list offer)
        (ms : list flight_option) :
  map_offers parseFloat data = Ok ms ->
  (forall i o, nth_error data i = Some o ->
     exists m, nth_error ms i = Some m /\
       o_id m = if truthy_str (offer_id o) then js_String_opt (offer_id o)
                else "am-" ++ nat_to_string i) /\
  (forall i j oi oj mi mj,
     i <> j -> nth_error data i = Some oi -> nth_error data j = Some oj ->
     truthy_str (offer_id oi) = false -> truthy_str (offer_id oj) = false ->
     nth_error ms i = Some mi -> nth_error ms j = Some mj -> o_id mi <> o_id mj).
Proof.
  intro H. destruct (map_offers_from_nth _ _ _ _ H) as [_ Hnth].
  assert (Hid : forall i o, nth_error data i = Some o ->
     exists m, nth_error ms i = Some m /\
       o_id m = if truthy_str (offer_id o) then js_String_opt (offer_id o)
                else "am-" ++ nat_to_string i).
  { intros i o Hi. destruct (Hnth i o Hi) as [m [Hm Hmo]]. exists m. split; [exact Hm|].
    unfold map_offer in Hmo. destruct (itineraries o); [discriminate|].
    injection Hmo as <-. reflexivity. }
  split; [exact Hid|].
  intros i j oi oj mi mj Hij Hi Hj Hoi Hoj Hmi Hmj Heq.
  destruct (Hid i oi Hi) as [mi' [Hmi' Hidi]]. destruct (Hid j oj Hj) as [mj' [Hmj' Hidj]].
  rewrite Hmi in Hmi'. injection Hmi' as <-. rewrite Hmj in Hmj'. injection Hmj' as <-.
  rewrite Hoi in Hidi. rewrite Hoj in Hidj. rewrite Hidi, Hidj in Heq.
  exact (Hij (synthesized_id_inj _ _ Heq)).
Qed.

Lemma mapped_ids_witness :
  exists ms, map_offers parseFloat_digits [mk_offer None "200" one_itin; mk_offer None "150" one_itin]
             = Ok ms /\
  forall i j oi oj mi mj,
     i <> j -> nth_error [mk_offer None "200" one_itin; mk_offer None "150" one_itin] i = Some oi ->
     nth_error [mk_offer None "200" one_itin; mk_offer None "150" one_itin] j = Some oj ->
     truthy_str (offer_id oi) = false -> truthy_str (offer_id oj) = false ->
     nth_error ms i = Some mi -> nth_error ms j = Some mj -> o_id mi <> o_id mj.
Proof.
  eexists. split; [reflexivity|].
  apply (mapped_ids parseFloat_digits [mk_offer None "200" one_itin; mk_offer None "150" one_itin]).
  reflexivity.
Defined.

(** ** The first copy of [searchAmadeus] *)

(** X13 *)
(** The first copy never surfaces an upstream error list: for any body
    with a non-empty [errors] list, its result is the one it gives on the
    same [data] without errors, never an [Error] with a message (only the
    TypeError of an offer without itineraries can end it), and the empty
    Option list when [data] is not an array; the second copy fails on
    the same body with the joined messages. *)
Theorem v1_ignores_errors (parseFloat : string -> jsnum) (q : query)
        (res : search_body) (es : list upstream_error) :
  res_errors res = Some es -> es <> [] ->
  process_body_v1 parseFloat res =
    process_body_v1 parseFloat {| res_errors := None; res_data := res_data res |} /\
  (forall m, process_body_v1 parseFloat res <> Throw (Error m)) /\
  (res_data res = DataOther -> process_body_v1 parseFloat res = Ok []) /\
  process_body parseFloat q res =
    Throw (Error ("Amadeus error: " ++ join " | " (map err_text es))).
Proof.
  intros He Hne. split; [reflexivity|]. split; [|split].
  - intros m H. unfold process_body_v1, map_offers in H.
    apply map_offers_from_throw in H. discriminate H.
  - intro Hd. unfold process_body_v1. rewrite Hd. reflexivity.
  - unfold process_body. rewrite He.
    destruct es as [|e es]; [congruence|]. reflexivity.
Qed.

Lemma v1_ignores_errors_witness :
  res_errors {| res_errors := Some [invalid_date_error]; res_data := DataOther |}
    = Some [invalid_date_error] /\
  [invalid_date_error] <> [] /\
  process_body_v1 parseFloat_digits {| res_errors := Some [invalid_date_error]; res_data := DataOther |}
    = Ok [] /\
  process_body parseFloat_digits sample_query
    {| res_errors := Some [invalid_date_error]; res_data := DataOther |} =
    Throw (Error ("Amadeus error: " ++ join " | " (map err_text [invalid_date_error]))).
Proof.
  assert (Hne : [invalid_date_error] <> []) by discriminate.
  split; [reflexivity|]. split; [exact Hne|].
  destruct (v1_ignores_errors parseFloat_digits sample_query
              {| res_errors := Some [invalid_date_error]; res_data := DataOther |}
              [invalid_date_error] eq_refl Hne) as [_ [_ [H3 H4]]].
  split; [apply H3; reflexivity|exact H4].
Defined.




(** ** The route *)

Definition valid_query (q : query) : Prop :=
  q_from q <> EmptyString /\ q_to q <> EmptyString /\ q_start q <> EmptyString.

Lemma valid_query_cond q :
  valid_query q ->
  negb (nonempty (q_from q)) || negb (nonempty (q_to q)) || negb (nonempty (q_start q)) = false.
Proof.
  intros [Hf [Ht Hs]]. unfold nonempty.
  apply String.eqb_neq in Hf, Ht, Hs. rewrite Hf, Ht, Hs. reflexivity.
Qed.

(** X1 *)
(** A request without a body, or whose [from], [to] or [start] is empty,
    is answered 400 with "from, to, start are required", whatever the
    search would have done: the search is not consulted. *)
Theorem handle_search_rejects (builtin_message : js_error -> string)
        (search : query -> outcome (list flight_option)) (req_body : option query) :
  match req_body with
  | None => True
  | Some q => q_from q = EmptyString \/ q_to q = EmptyString \/ q_start q = EmptyString
  end ->
  handle_search builtin_message search req_body =
  {| http_status := 400; api_json := ApiError "from, to, start are required" |}.
Proof.
  destruct req_body as [q|]; intro H; [|reflexivity]. unfold handle_search.
  assert (Hc : negb (nonempty (q_from q)) || negb (nonempty (q_to q))
               || negb (nonempty (q_start q)) = true)
    by (destruct H as [H|[H|H]]; rewrite H; simpl; rewrite ?Bool.orb_true_r; reflexivity).
  rewrite Hc. reflexivity.
Qed.

Lemma handle_search_rejects_witness :
  q_start {| q_from := "JFK"; q_to := "LAX"; q_start := EmptyString; q_end := None;
             q_pax := None; q_optimize := None |} = EmptyString /\
  handle_search (fun _ => "failure") (fun _ => Ok [])
    (Some {| q_from := "JFK"; q_to := "LAX"; q_start := EmptyString; q_end := None;
             q_pax := None; q_optimize := None |}) =
  {| http_status := 400; api_json := ApiError "from, to, start are required" |}.
Proof.
  split; [reflexivity|].
  apply handle_search_rejects. right. right. reflexivity.
Defined.

(** With valid dates, the parameters are built without error. *)
Lemma request_params_ok (format_date : string -> string) (valid_date : string -> bool)
      (nts : Q -> string) (q : query) :
  valid_date (q_start q) = true ->
  (truthy_str (q_end q) = true -> valid_date (js_String_opt (q_end q)) = true) ->
  request_params format_date valid_date nts q = Ok (build_params format_date nts q).
Proof.
  intros Hs He. unfold request_params, format_checked. rewrite Hs.
  destruct (truthy_str (q_end q)); [rewrite (He eq_refl)|]; reflexivity.
Qed.

(** X2 *)
(** End to end: for a valid query whose dates are valid, when the token
    exchange succeeds and the offer search answers with a 2xx status and
    a non-empty [errors] list, the route answers 500 with the error
    "Amadeus error: " followed by the entries' messages joined by " | ". *)
Theorem route_surfaces_upstream_errors (builtin_message : js_error -> string)
        (parseFloat : string -> jsnum) (format_date : string -> string)
        (valid_date : string -> bool) (nts : Q -> string)
        (q : query) (tok : http_response token_body)
        (res : http_response search_body) (t : option string)
        (es : list upstream_error) :
  valid_query q -> valid_date (q_start q) = true ->
  (truthy_str (q_end q) = true -> valid_date (js_String_opt (q_end q)) = true) ->
  getAccessToken tok = Ok t ->
  ky_json res = Ok (body res) -> res_errors (body res) = Some es -> es <> [] ->
  handle_search builtin_message
    (fun q => searchAmadeus parseFloat format_date valid_date nts q tok res) (Some q) =
  {| http_status := 500;
     api_json := ApiError ("Amadeus error: " ++ join " | " (map err_text es)) |}.
Proof.
  intros Hq Hs Hen Ht Hr He Hne. unfold handle_search. rewrite (valid_query_cond q Hq).
  unfold searchAmadeus. rewrite Ht, (request_params_ok _ _ _ q Hs Hen), Hr.
  unfold process_body. rewrite He.
  destruct es as [|e es]; [congruence|]. reflexivity.
Qed.

Definition error_response : http_response search_body :=
  {| status := 200; body := {| res_errors := Some [invalid_date_error]; res_data := DataOther |} |}.

Lemma route_surfaces_upstream_errors_witness :
  valid_query sample_query /\
  handle_search (fun _ => "failure")
    (fun q => searchAmadeus parseFloat_digits (fun s => s) (fun _ => true) (fun _ => "?")
                q ok_token error_response)
    (Some sample_query) =
  {| http_status := 500;
     api_json := ApiError ("Amadeus error: " ++ join " | " (map err_text [invalid_date_error])) |}.
Proof.
  assert (Hq : valid_query sample_query) by (repeat split; discriminate).
  split; [exact Hq|].
  apply (route_surfaces_upstream_errors _ _ _ _ _ _ _ _ (Some "abc")); try reflexivity.
  - exact Hq.
  - discriminate.
Defined.

(** X3 *)
(** End to end: for a valid query whose dates are valid, when the token
    exchange succeeds and the offer search answers with a 2xx status, no
    errors and a [data] array whose offers all have an itinerary, the
    route answers 200 with the ranked Options: one per offer, a
    reordering of the mapping. *)
Theorem route_success (builtin_message : js_error -> string)
        (parseFloat : string -> jsnum) (format_date : string -> string)
        (valid_date : string -> bool) (nts : Q -> string)
        (q : query) (tok : http_response token_body)
        (res : http_response search_body) (t : option string) (offers : list offer) :
  valid_query q -> valid_date (q_start q) = true ->
  (truthy_str (q_end q) = true -> valid_date (js_String_opt (q_end q)) = true) ->
  getAccessToken tok = Ok t -> ky_json res = Ok (body res) ->
  (res_errors (body res) = None \/ res_errors (body res) = Some []) ->
  res_data (body res) = DataArray offers ->
  Forall (fun o => itineraries o <> []) offers ->
  exists mapped,
    map_offers parseFloat offers = Ok mapped /\
    handle_search builtin_message
      (fun q => searchAmadeus parseFloat format_date valid_date nts q tok res) (Some q) =
      {| http_status := 200; api_json := ApiOptions (rank (q_optimize q) mapped) |} /\
    Permutation mapped (rank (q_optimize q) mapped) /\
    length (rank (q_optimize q) mapped) = length offers.
Proof.
  intros Hq Hs Hen Ht Hr He Hd Hit.
  destruct (map_offers_ok parseFloat offers Hit) as [mapped [Hm Hlen]].
  exists mapped. split; [exact Hm|].
  pose proof (rank_reorders (q_optimize q) mapped (mapped_no_score _ _ _ Hm)) as Hp.
  split; [|split; [exact Hp|rewrite <- (Permutation_length Hp); exact Hlen]].
  unfold handle_search. rewrite (valid_query_cond q Hq).
  unfold searchAmadeus. rewrite Ht, (request_params_ok _ _ _ q Hs Hen), Hr.
  unfold process_body.
  destruct He as [He|He]; rewrite He, Hd, Hm; reflexivity.
Qed.

Definition offers_response : http_response search_body := {| status := 200; body := sample_body |}.

Lemma route_success_witness :
  valid_query sample_query /\
  exists mapped,
    map_offers parseFloat_digits
      [mk_offer (Some "o1") "200" one_itin; mk_offer None "150" one_itin] = Ok mapped /\
    handle_search (fun _ => "failure")
      (fun q => searchAmadeus parseFloat_digits (fun s => s) (fun _ => true) (fun _ => "?")
                  q ok_token offers_response) (Some sample_query) =
      {| http_status := 200; api_json := ApiOptions (rank (q_optimize sample_query) mapped) |} /\
    Permutation mapped (rank (q_optimize sample_query) mapped) /\
    length (rank (q_optimize sample_query) mapped) =
      length [mk_offer (Some "o1") "200" one_itin; mk_offer None "150" one_itin].
Proof.
  assert (Hq : valid_query sample_query) by (repeat split; discriminate).
  split; [exact Hq|].
  apply (route_success _ _ _ _ _ _ _ _ (Some "abc")); try reflexivity.
  - exact Hq.
  - left. reflexivity.
  - repeat constructor; discriminate.
Defined.

(** X17 *)
(** End to end: for a valid query, when the token exchange succeeds but
    [start], or a supplied [end], is not a date [new Date] can read,
    date-fns' [format] throws and the route answers 500 with the error
    "Invalid time value", whatever the offer search would answer. *)
Theorem route_invalid_date (builtin_message : js_error -> string)
        (parseFloat : string -> jsnum) (format_date : string -> string)
        (valid_date : string -> bool) (nts : Q -> string)
        (q : query) (tok : http_response token_body)
        (res : http_response search_body) (t : option string) :
  valid_query q -> getAccessToken tok = Ok t ->
  (valid_date (q_start q) = false \/
   (truthy_str (q_end q) = true /\ valid_date (js_String_opt (q_end q)) = false)) ->
  handle_search builtin_message
    (fun q => searchAmadeus parseFloat format_date valid_date nts q tok res) (Some q) =
  {| http_status := 500; api_json := ApiError "Invalid time value" |}.
Proof.
  intros Hq Ht Hd. unfold handle_search. rewrite (valid_query_cond q Hq).
  unfold searchAmadeus. rewrite Ht.
  assert (Hp : request_params format_date valid_date nts q
               = Throw (RangeError "Invalid time value")).
  { unfold request_params, format_checked. destruct Hd as [Hs|[He Hv]].
    - rewrite Hs. reflexivity.
    - destruct (valid_date (q_start q)); [|reflexivity]. rewrite He, Hv. reflexivity. }
  rewrite Hp. reflexivity.
Qed.

Lemma route_invalid_date_witness :
  valid_query sample_query /\
  handle_search (fun _ => "failure")
    (fun q => searchAmadeus parseFloat_digits (fun s => s) (fun _ => false) (fun _ => "?")
                q ok_token offers_response) (Some sample_query) =
  {| http_status := 500; api_json := ApiError "Invalid time value" |}.
Proof.
  assert (Hq : valid_query sample_query) by (repeat split; discriminate).
  split; [exact Hq|].
  apply (route_invalid_date _ _ _ _ _ _ _ _ (Some "abc")); [exact Hq|reflexivity|].
  left. reflexivity.
Defined.
